(** * libgmultigrid: the constraint-assembly layer and the multigrid domain interface

    A shallow embedding of [include/libgmultigrid/domain_constraints.h] and
    [include/libgmultigrid/multigrid_domain.h].

    - [double] is Rocq's primitive binary64 [float]; [int] and [Eigen::Index]
      are [Z] (signed overflow is undefined in C++ and is not modelled: the
      integers involved are matrix dimensions and indices).
    - Eigen is an external library.  The few operations the two headers use
      are modelled in [Module Eigen] after Eigen's documented behaviour; an
      [eigen_assert] that fails is the error result [Err _].
    - The CRTP parameter [T] of [DomainConstraints<T>] is a type class whose
      methods are the five member functions [T] must supply.  Every call goes
      through a [static_cast] of [this] to [const T&], so the implementation's
      state is read-only and the methods are functions of it.
    - [MultigridDomain<Mult, Operator>] has only pure virtual members: it is a
      type class over the type of concrete domain states. *)

From Stdlib Require Import ZArith Lia.
From Stdlib Require Import Floats.PrimFloat.
From stdpp Require Import base option list gmap.

Local Open Scope Z_scope.

(** ** Failing assertions *)

Inductive EigenError : Type :=
  | NegativeSize      (* a vector or matrix is given a negative dimension *)
  | IndexOutOfRange   (* a coefficient or block lies outside its matrix *)
  | SizeMismatch.     (* the two sides of an assignment differ in size *)

Inductive result (A : Type) : Type :=
  | Ok (a : A)
  | Err (e : EigenError).
Arguments Ok {A} a.
Arguments Err {A} e.

#[global] Instance result_ret : MRet result := fun A a => Ok a.
#[global] Instance result_bind : MBind result := fun A B f m =>
  match m with
  | Ok a => f a
  | Err e => Err e
  end.

Definition eigen_assert (cond : bool) (e : EigenError) : result unit :=
  if cond then Ok tt else Err e.

(** ** The part of Eigen the headers use *)

Module Eigen.

(** [Eigen::VectorXd]: a column of doubles. *)
Definition VectorXd : Type := list float.

Definition rows (v : VectorXd) : Z := Z.of_nat (length v).

(** [VectorXd v(n)]: [n] coefficients, none of them initialised.  What the
    fresh storage holds is the argument [junk]. *)
Definition uninitialized (junk : nat -> float) (n : Z) : result VectorXd :=
  _ ← eigen_assert (0 <=? n) NegativeSize;
  Ok (map junk (seq 0 (Z.to_nat n))).

(** [v.setZero(n)]: resize to [n] coefficients, all of them zero. *)
Definition setZero (v : VectorXd) (n : Z) : result VectorXd :=
  _ ← eigen_assert (0 <=? n) NegativeSize;
  Ok (replicate (Z.to_nat n) 0%float).

(** [b.block(start, 0, n, 1) = seg]: the block must lie inside [b] (the
    check of the [Block] constructor), and a block cannot be resized, so
    [seg] must have [n] rows. *)
Definition assign_block (b : VectorXd) (start n : Z) (seg : VectorXd)
  : result VectorXd :=
  _ ← eigen_assert ((0 <=? start) && (0 <=? n) && (start <=? rows b - n))
        IndexOutOfRange;
  _ ← eigen_assert (rows seg =? n) SizeMismatch;
  Ok (list_inserts (Z.to_nat start) seg b).

(** [v.lpNorm<Eigen::Infinity>()]: zero on an empty vector, otherwise
    [v.cwiseAbs().maxCoeff()], whose visitor starts from the first
    coefficient and replaces its result by each strictly greater one. *)
Definition max_visit (res x : float) : float :=
  if PrimFloat.ltb res (PrimFloat.abs x) then PrimFloat.abs x else res.

Definition lpNorm_Infinity (v : VectorXd) : float :=
  match v with
  | [] => 0%float
  | x :: xs => fold_left max_visit xs (PrimFloat.abs x)
  end.

(** [Eigen::MatrixXd]: a dense matrix of doubles, stored column by column. *)
Record MatrixXd : Type := mkMatrixXd {
  m_rows : Z;
  m_cols : Z;
  m_data : list float
}.

(** The storage of a matrix holds [m_rows * m_cols] coefficients. *)
Definition MatrixXd_wf (A : MatrixXd) : Prop :=
  0 <= m_rows A /\ 0 <= m_cols A /\
  Z.of_nat (length (m_data A)) = m_rows A * m_cols A.

Definition in_matrix (A : MatrixXd) (i j : Z) : bool :=
  (0 <=? i) && (i <? m_rows A) && (0 <=? j) && (j <? m_cols A).

Definition linear_index (A : MatrixXd) (i j : Z) : nat :=
  Z.to_nat (i + j * m_rows A).

(** [A(i, j)] read. *)
Definition coeff (A : MatrixXd) (i j : Z) : result float :=
  _ ← eigen_assert (in_matrix A i j) IndexOutOfRange;
  match m_data A !! linear_index A i j with
  | Some x => Ok x
  | None => Err IndexOutOfRange
  end.

(** [A(i, j) = x]. *)
Definition set_coeff (A : MatrixXd) (i j : Z) (x : float) : result MatrixXd :=
  _ ← eigen_assert (in_matrix A i j) IndexOutOfRange;
  Ok {| m_rows := m_rows A; m_cols := m_cols A;
        m_data := <[linear_index A i j := x]> (m_data A) |}.

(** [MatrixXd::Zero(n, m)]. *)
Definition Zero (n m : Z) : MatrixXd :=
  {| m_rows := n; m_cols := m;
     m_data := replicate (Z.to_nat (n * m)) 0%float |}.

(** [Eigen::Triplet<double>]. *)
Record Triplet : Type := mkTriplet {
  row : Z;
  col : Z;
  value : float
}.

(** [Eigen::SparseMatrix<double>]: its dimensions and the coefficients it
    stores; a coordinate that is not stored reads as zero. *)
Record SparseMatrix : Type := mkSparseMatrix {
  sp_rows : Z;
  sp_cols : Z;
  sp_coeffs : gmap (Z * Z) float
}.

Definition sp_coeff (B : SparseMatrix) (i j : Z) : float :=
  default 0%float (sp_coeffs B !! (i, j)).

(** [B.resize(r, c)]: an [r] x [c] matrix that stores nothing. *)
Definition resize (B : SparseMatrix) (r c : Z) : result SparseMatrix :=
  _ ← eigen_assert ((0 <=? r) && (0 <=? c)) NegativeSize;
  Ok {| sp_rows := r; sp_cols := c; sp_coeffs := ∅ |}.

(** One step of the assembly: a coordinate met for the first time stores
    the triplet's value, a coordinate met again adds to what is stored. *)
Definition accumulate (m : gmap (Z * Z) float) (t : Triplet)
  : gmap (Z * Z) float :=
  partial_alter
    (fun old => Some (match old with
                      | Some s => PrimFloat.add s (value t)
                      | None => value t
                      end))
    (row t, col t) m.

Definition triplet_in (r c : Z) (t : Triplet) : bool :=
  (0 <=? row t) && (row t <? r) && (0 <=? col t) && (col t <? c).

(** [B.setFromTriplets(begin, end)]: every triplet must lie inside [B]; what
    [B] stored before is destroyed; duplicates are summed up in the order
    of the list. *)
Definition setFromTriplets (B : SparseMatrix) (ts : list Triplet)
  : result SparseMatrix :=
  _ ← eigen_assert (forallb (triplet_in (sp_rows B) (sp_cols B)) ts)
        IndexOutOfRange;
  Ok {| sp_rows := sp_rows B; sp_cols := sp_cols B;
        sp_coeffs := fold_left accumulate ts ∅ |}.

End Eigen.

Import Eigen.

(** ** [domain_constraints.h]: namespace LWS, [DomainConstraints<T>] *)

(** The five member functions a constraint type [T] supplies.  [AddTriplets]
    and [SetTargetValues] take their argument by non-const reference, so they
    map the vector they are given to the vector they leave;
    [NegativeConstraintValues] takes both [b] and [targets] that way.
    [NumConstraintRows()] and [NumExpectedCols()] of the base class only
    forward to those of [T], so the methods below stand for both. *)
Class DomainConstraints (T : Type) : Type := {
  NumConstraintRows : T -> Z;
  NumExpectedCols : T -> Z;
  AddTriplets : T -> list Triplet -> list Triplet;
  SetTargetValues : T -> VectorXd -> VectorXd;
  NegativeConstraintValues : T -> VectorXd -> VectorXd -> VectorXd * VectorXd
}.

Section GenericLayer.
Context {T : Type} `{DomainConstraints T}.

Definition SaddleNumRows (c : T) : Z :=
  NumConstraintRows c + NumExpectedCols c.

Definition FillConstraintMatrix (c : T) (B : SparseMatrix)
  : result SparseMatrix :=
  let triplets := [] in
  let nRows := NumConstraintRows c in
  let nCols := NumExpectedCols c in
  let triplets := AddTriplets c triplets in
  B ← resize B nRows nCols;
  setFromTriplets B triplets.

(** The body of the loop of [FillDenseBlock]. *)
Definition fill_dense_step (offset : Z) (A : MatrixXd) (t : Triplet)
  : result MatrixXd :=
  (* Copy into lower-left block *)
  A ← set_coeff A (offset + row t) (col t) (value t);
  (* Copy transpose into upper-right block *)
  set_coeff A (col t) (offset + row t) (value t).

Fixpoint fill_dense_loop (offset : Z) (A : MatrixXd) (ts : list Triplet)
  : result MatrixXd :=
  match ts with
  | [] => Ok A
  | t :: ts' => A ← fill_dense_step offset A t; fill_dense_loop offset A ts'
  end.

Definition FillDenseBlock (c : T) (A : MatrixXd) : result MatrixXd :=
  let triplets := AddTriplets c [] in
  let offset := NumExpectedCols c in
  fill_dense_loop offset A triplets.

Definition UpdateTargetValues (c : T) (targets : VectorXd) : result VectorXd :=
  let nConstrs := NumConstraintRows c in
  targets ← (if negb (rows targets =? nConstrs)
             then setZero targets nConstrs
             else Ok targets);
  Ok (SetTargetValues c targets).

(** Returns the vectors [b] and [targets] as the call leaves them, and the
    norm.  [junk] is the content of the uninitialised [b_constrs].  The
    caller's [b] and [targets] are two vectors, not one passed twice. *)
Definition FillConstraintValues (junk : nat -> float) (c : T)
    (b targets : VectorXd) (offset : Z)
  : result (VectorXd * VectorXd * float) :=
  let nConstrs := NumConstraintRows c in
  b_constrs ← uninitialized junk nConstrs;
  let '(b_constrs, targets) := NegativeConstraintValues c b_constrs targets in
  b ← assign_block b offset nConstrs b_constrs;
  Ok (b, targets, lpNorm_Infinity b_constrs).

End GenericLayer.


(** What the documentation of the five member functions asks of [T]. *)
Section ImplementationContract.
Context {T : Type} `{DomainConstraints T}.

(** The triplets [AddTriplets] adds to an empty list are the emitted ones. *)
Definition emitted (c : T) : list Triplet := AddTriplets c [].

(** No emitted triplet lies outside the constraint block. *)
Definition triplets_in_range (c : T) : Prop :=
  Forall (fun t => 0 <= row t < NumConstraintRows c /\
                   0 <= col t < NumExpectedCols c) (emitted c).

(** "given a vector with NumConstraintRows() entries, sets each entry to be
    the corresponding value of that constraint function": what the vector
    held before does not show in what it holds after. *)
Definition SetTargetValues_fills (c : T) : Prop :=
  exists current : VectorXd,
    rows current = NumConstraintRows c /\
    forall v : VectorXd,
      rows v = NumConstraintRows c -> SetTargetValues c v = current.

(** "given a vector b with NumConstraintRows() entries [...] fills b": the
    vector keeps its size. *)
Definition NegativeConstraintValues_fills (c : T) : Prop :=
  forall b targets : VectorXd,
    rows b = NumConstraintRows c ->
    rows (NegativeConstraintValues c b targets).1 = NumConstraintRows c.

End ImplementationContract.

(** The two coefficients of the dense matrix a triplet is copied to. *)
Definition writes_to (offset : Z) (t : Triplet) (i j : Z) : bool :=
  ((i =? offset + row t) && (j =? col t)) ||
  ((i =? col t) && (j =? offset + row t)).

(** The value the loop of [FillDenseBlock] copies last to [(i, j)], if any. *)
Definition later_write (offset i j : Z) (w : option float) (t : Triplet)
  : option float :=
  if writes_to offset t i j then Some (value t) else w.

Definition last_write (offset : Z) (ts : list Triplet) (i j : Z) : option float :=
  fold_left (later_write offset i j) ts None.

(** What is read at [(i, j)] once the value [w] was copied over [old]. *)
Definition overwritten (w : option float) (old : result float) : result float :=
  match w with
  | Some x => Ok x
  | None => old
  end.

(** The values of the triplets at [(i, j)], added up from left to right. *)
Definition add_at (i j : Z) (s : option float) (t : Triplet) : option float :=
  if (row t =? i) && (col t =? j)
  then Some (match s with
             | Some x => PrimFloat.add x (value t)
             | None => value t
             end)
  else s.

Definition sum_at (ts : list Triplet) (i j : Z) : option float :=
  fold_left (add_at i j) ts None.

(** ** [multigrid_domain.h]: [MultigridDomain<Mult, Operator>] *)

(** The pure virtual members.  [D] is the type of the states of the concrete
    domains; [Coarsen] returns a pointer to a newly made domain, here its
    state.  [NullSpaceProjector] comes from [nullspace_projector.h] and is
    opaque to this header: it is a parameter.  [DirectSolve] takes [b] by
    non-const reference and so returns [b] as it leaves it next to the
    solution.  The header gives no member a body and holds no concrete
    domain, so the class carries no law. *)
Class MultigridDomain (Mult Operator NullSpaceProjector D : Type) : Type := {
  Coarsen : D -> Operator -> D;
  GetMultiplier : D -> Mult;
  GetFullMatrix : D -> MatrixXd;
  DirectSolve : D -> VectorXd -> VectorXd * VectorXd;
  NumVertices : D -> Z;
  NumRows : D -> Z;
  MakeNewOperator : D -> Operator;
  GetConstraintProjector : D -> NullSpaceProjector
}.

(** ** Concrete constraint sets *)

(** One constraint over three unknowns: their sum equals [sc_target]. *)
Record SumConstraint : Type := mkSumConstraint {
  sc_x0 : float;
  sc_x1 : float;
  sc_x2 : float;
  sc_target : float
}.

Definition sc_sum (c : SumConstraint) : float :=
  PrimFloat.add (PrimFloat.add (sc_x0 c) (sc_x1 c)) (sc_x2 c).

#[global] Instance SumConstraint_constraints : DomainConstraints SumConstraint := {
  NumConstraintRows _ := 1;
  NumExpectedCols _ := 3;
  AddTriplets _ ts :=
    ts ++ [mkTriplet 0 0 1%float; mkTriplet 0 1 1%float; mkTriplet 0 2 1%float];
  SetTargetValues c v := <[0%nat := sc_target c]> v;
  NegativeConstraintValues c b targets :=
    (<[0%nat := PrimFloat.sub (default 0%float (targets !! 0%nat)) (sc_sum c)]> b,
     targets)
}.

(** One constraint over one unknown whose coefficient is emitted in two
    parts, both at coordinate (0, 0). *)
Record SplitConstraint : Type := mkSplitConstraint {
  split_first : float;
  split_second : float
}.

#[global] Instance SplitConstraint_constraints : DomainConstraints SplitConstraint := {
  NumConstraintRows _ := 1;
  NumExpectedCols _ := 1;
  AddTriplets c ts :=
    ts ++ [mkTriplet 0 0 (split_first c); mkTriplet 0 0 (split_second c)];
  SetTargetValues _ v := <[0%nat := 0%float]> v;
  NegativeConstraintValues _ b targets := (<[0%nat := 0%float]> b, targets)
}.

Definition no_junk : nat -> float := fun _ => 0%float.

(** The coordinate of a triplet in the constraint block. *)
Definition coordinate (t : Triplet) : Z * Z := (row t, col t).

(** No two emitted triplets share a coordinate. *)
Definition coordinates_distinct {T : Type} `{DomainConstraints T} (c : T) : Prop :=
  NoDup (map coordinate (emitted c)).

(** The two positions of [A] the loop of [FillDenseBlock] writes for [t]. *)
Definition positions_in_matrix (offset : Z) (A : MatrixXd) (t : Triplet) : Prop :=
  in_matrix A (offset + row t) (col t) = true /\
  in_matrix A (col t) (offset + row t) = true.

(** No constraint at all over [fc_cols] unknowns. *)
Record FreeConstraint : Type := mkFreeConstraint {
  fc_cols : Z
}.

#[global] Instance FreeConstraint_constraints : DomainConstraints FreeConstraint := {
  NumConstraintRows _ := 0;
  NumExpectedCols c := fc_cols c;
  AddTriplets _ ts := ts;
  SetTargetValues _ v := v;
  NegativeConstraintValues _ b targets := (b, targets)
}.

(** ** Facts about the model of Eigen *)

Lemma bind_Ok {A B : Type} (m : result A) (f : A -> result B) (b : B) :
  m ≫= f = Ok b <-> exists a, m = Ok a /\ f a = Ok b.
Proof.
  destruct m as [a|e]; simpl; split.
  - intros Hf. exists a. split; [reflexivity | exact Hf].
  - intros (a' & Ha & Hf). injection Ha as ->. exact Hf.
  - discriminate.
  - intros (a' & Ha & _). discriminate.
Qed.

Lemma in_matrix_spec (A : MatrixXd) (i j : Z) :
  in_matrix A i j = true <-> 0 <= i < m_rows A /\ 0 <= j < m_cols A.
Proof. unfold in_matrix. rewrite !andb_true_iff. lia. Qed.

Lemma linear_index_inj (A : MatrixXd) (i j i' j' : Z) :
  in_matrix A i j = true -> in_matrix A i' j' = true ->
  linear_index A i j = linear_index A i' j' -> i = i' /\ j = j'.
Proof.
  rewrite !in_matrix_spec. unfold linear_index. intros Hij Hij' Heq.
  assert (i + j * m_rows A = i' + j' * m_rows A) as Hz by nia.
  assert (j = j') as -> by nia.
  split; lia.
Qed.

Lemma linear_index_lt (A : MatrixXd) (i j : Z) :
  MatrixXd_wf A -> in_matrix A i j = true ->
  (linear_index A i j < length (m_data A))%nat.
Proof.
  intros (Hr & Hc & Hlen). rewrite in_matrix_spec. unfold linear_index.
  intros Hij. apply Nat2Z.inj_lt. rewrite Hlen, Z2Nat.id by nia. nia.
Qed.

Lemma coeff_set_coeff (A A' : MatrixXd) (i j : Z) (x : float) :
  MatrixXd_wf A -> set_coeff A i j x = Ok A' ->
  MatrixXd_wf A' /\ m_rows A' = m_rows A /\ m_cols A' = m_cols A /\
  forall i' j',
    coeff A' i' j' = if (i' =? i) && (j' =? j) then Ok x else coeff A i' j'.
Proof.
  intros Hwf. unfold set_coeff, eigen_assert.
  destruct (in_matrix A i j) eqn:Hin; simpl; [|discriminate].
  intros [= <-]. repeat split; simpl; try apply Hwf.
  - rewrite length_insert. apply Hwf.
  - intros i' j'. unfold coeff, eigen_assert, in_matrix, linear_index. simpl.
    fold (in_matrix A i' j'). fold (linear_index A i j) (linear_index A i' j').
    destruct ((i' =? i) && (j' =? j)) eqn:Hsame.
    + apply andb_true_iff in Hsame as [->%Z.eqb_eq ->%Z.eqb_eq].
      rewrite Hin. simpl.
      rewrite list_lookup_insert_eq by (apply linear_index_lt; assumption).
      reflexivity.
    + destruct (in_matrix A i' j') eqn:Hin'; simpl; [|reflexivity].
      rewrite list_lookup_insert_ne; [reflexivity|].
      intros Heq. apply linear_index_inj in Heq as [-> ->]; try assumption.
      rewrite !Z.eqb_refl in Hsame. discriminate.
Qed.

(** ** The loop of [FillDenseBlock] *)

Lemma overwritten_fold (offset i j : Z) (ts : list Triplet)
    (w : option float) (old : result float) :
  overwritten (fold_left (later_write offset i j) ts None) (overwritten w old)
  = overwritten (fold_left (later_write offset i j) ts w) old.
Proof.
  revert w old. induction ts as [|t ts IH]; intros w old; simpl; [reflexivity|].
  unfold later_write at 2 4. destruct (writes_to offset t i j).
  - rewrite <- (IH (Some (value t)) old).
    rewrite <- (IH (Some (value t)) (overwritten w old)). reflexivity.
  - apply IH.
Qed.

Lemma fill_dense_step_spec (offset : Z) (A : MatrixXd) (t : Triplet) :
  MatrixXd_wf A ->
  in_matrix A (offset + row t) (col t) = true ->
  in_matrix A (col t) (offset + row t) = true ->
  exists A',
    fill_dense_step offset A t = Ok A' /\
    MatrixXd_wf A' /\ m_rows A' = m_rows A /\ m_cols A' = m_cols A /\
    forall i j,
      coeff A' i j = if writes_to offset t i j then Ok (value t) else coeff A i j.
Proof.
  intros Hwf Hlow Hup. unfold fill_dense_step.
  destruct (set_coeff A (offset + row t) (col t) (value t)) as [A1|e] eqn:H1.
  2: { unfold set_coeff, eigen_assert in H1. rewrite Hlow in H1. discriminate. }
  destruct (coeff_set_coeff _ _ _ _ _ Hwf H1) as (Hwf1 & Hr1 & Hc1 & Hread1).
  simpl.
  destruct (set_coeff A1 (col t) (offset + row t) (value t)) as [A2|e] eqn:H2.
  2: { unfold set_coeff, eigen_assert, in_matrix in H2.
       rewrite Hr1, Hc1 in H2. fold (in_matrix A (col t) (offset + row t)) in H2.
       rewrite Hup in H2. discriminate. }
  destruct (coeff_set_coeff _ _ _ _ _ Hwf1 H2) as (Hwf2 & Hr2 & Hc2 & Hread2).
  exists A2. split_and!; try assumption; try congruence.
  intros i j. rewrite Hread2, Hread1. unfold writes_to.
  destruct ((i =? col t) && (j =? offset + row t));
    destruct ((i =? offset + row t) && (j =? col t)); reflexivity.
Qed.

Lemma fill_dense_loop_spec (offset : Z) (ts : list Triplet) (A : MatrixXd) :
  MatrixXd_wf A ->
  Forall (fun t => in_matrix A (offset + row t) (col t) = true /\
                   in_matrix A (col t) (offset + row t) = true) ts ->
  exists A',
    fill_dense_loop offset A ts = Ok A' /\
    MatrixXd_wf A' /\ m_rows A' = m_rows A /\ m_cols A' = m_cols A /\
    forall i j,
      coeff A' i j = overwritten (last_write offset ts i j) (coeff A i j).
Proof.
  revert A. induction ts as [|t ts IH]; intros A Hwf Hin.
  - exists A. split_and!; try done.
  - apply Forall_cons in Hin as [[Hlow Hup] Hin].
    destruct (fill_dense_step_spec offset A t Hwf Hlow Hup)
      as (A1 & Hstep & Hwf1 & Hr1 & Hc1 & Hread1).
    destruct (IH A1 Hwf1) as (A' & Hloop & Hwf' & Hr' & Hc' & Hread').
    { eapply Forall_impl; [exact Hin|]. intros t' [? ?].
      unfold in_matrix in *. rewrite Hr1, Hc1. split; assumption. }
    exists A'. simpl. rewrite Hstep. simpl.
    split_and!; try assumption; try congruence.
    intros i j. rewrite Hread', Hread1. unfold last_write. simpl.
    rewrite <- (overwritten_fold offset i j ts (later_write offset i j None t)).
    unfold later_write at 3. destruct (writes_to offset t i j); reflexivity.
Qed.

Lemma later_write_Some (offset i j : Z) (ts : list Triplet) (w : option float)
    (x : float) :
  fold_left (later_write offset i j) ts w = Some x ->
  w = Some x \/
  exists k t, ts !! k = Some t /\ writes_to offset t i j = true /\ value t = x.
Proof.
  revert w. induction ts as [|t ts IH]; intros w; simpl; [tauto|].
  intros Hfold. apply IH in Hfold as [Hw | (k & t' & Hk & Hw & Hx)].
  - unfold later_write in Hw.
    destruct (writes_to offset t i j) eqn:Hwt; [|tauto].
    right. exists 0%nat, t. injection Hw as <-. auto.
  - right. exists (S k), t'. auto.
Qed.

Lemma later_write_is_Some (offset i j : Z) (ts : list Triplet) (w : option float)
    (k : nat) (t : Triplet) :
  ts !! k = Some t -> writes_to offset t i j = true ->
  is_Some (fold_left (later_write offset i j) ts w).
Proof.
  revert k w. induction ts as [|t' ts IH]; intros k w Hk Hw; [discriminate|].
  destruct k as [|k]; simpl in *.
  - injection Hk as ->. unfold later_write at 2. rewrite Hw.
    clear IH. generalize (value t). induction ts as [|t'' ts IH]; intros x; simpl.
    + eauto.
    + unfold later_write at 2. destruct (writes_to offset t'' i j); apply IH.
  - eapply IH; eassumption.
Qed.

Lemma later_write_None (offset i j : Z) (ts : list Triplet) :
  Forall (fun t => writes_to offset t i j = false) ts ->
  fold_left (later_write offset i j) ts None = None.
Proof.
  induction 1 as [|t ts Ht _ IH]; simpl; [reflexivity|].
  unfold later_write at 2. rewrite Ht. exact IH.
Qed.

Section DenseBlock.
Context {T : Type} `{DomainConstraints T}.

Lemma emitted_positions_in_matrix (c : T) (A : MatrixXd) :
  m_rows A = SaddleNumRows c -> m_cols A = SaddleNumRows c ->
  triplets_in_range c ->
  Forall (fun t => in_matrix A (NumExpectedCols c + row t) (col t) = true /\
                   in_matrix A (col t) (NumExpectedCols c + row t) = true)
         (emitted c).
Proof.
  intros Hr Hc Hin. eapply Forall_impl; [exact Hin|].
  intros t [Hrow Hcol]. rewrite !in_matrix_spec, Hr, Hc.
  unfold SaddleNumRows. lia.
Qed.

(** Inside the block, the lower-left copy of one triplet and the upper-right
    copy of another never meet: only a triplet at the same coordinate writes
    where a triplet writes. *)
Lemma writes_to_same_coordinate (c : T) (t t' : Triplet) :
  0 <= row t -> 0 <= col t < NumExpectedCols c ->
  0 <= row t' -> 0 <= col t' < NumExpectedCols c ->
  writes_to (NumExpectedCols c) t' (NumExpectedCols c + row t) (col t) = true \/
  writes_to (NumExpectedCols c) t' (col t) (NumExpectedCols c + row t) = true ->
  row t' = row t /\ col t' = col t.
Proof.
  unfold writes_to. rewrite !orb_true_iff, !andb_true_iff, !Z.eqb_eq. lia.
Qed.

Lemma last_write_unique (c : T) (k : nat) (t : Triplet) (i j : Z) :
  triplets_in_range c ->
  emitted c !! k = Some t ->
  (forall k' t', emitted c !! k' = Some t' ->
                 row t' = row t -> col t' = col t -> k' = k) ->
  (i = NumExpectedCols c + row t /\ j = col t) \/
  (i = col t /\ j = NumExpectedCols c + row t) ->
  last_write (NumExpectedCols c) (emitted c) i j = Some (value t).
Proof.
  intros Hin Hk Huniq Hij.
  assert (writes_to (NumExpectedCols c) t i j = true) as Hw.
  { unfold writes_to. rewrite orb_true_iff, !andb_true_iff, !Z.eqb_eq. lia. }
  destruct (later_write_is_Some _ i j _ None k t Hk Hw) as [x Hx].
  unfold last_write. rewrite Hx. f_equal.
  apply later_write_Some in Hx as [Hx | (k' & t' & Hk' & Hw' & <-)];
    [discriminate|].
  unfold triplets_in_range in Hin. rewrite Forall_lookup in Hin.
  pose proof (Hin k t Hk) as [Hrow Hcol].
  pose proof (Hin k' t' Hk') as [Hrow' Hcol'].
  assert (row t' = row t /\ col t' = col t) as [Hr Hc].
  { apply (writes_to_same_coordinate c); try lia.
    destruct Hij as [[-> ->] | [-> ->]]; auto. }
  rewrite (Huniq k' t' Hk' Hr Hc) in Hk'. congruence.
Qed.

(** C1 (as amended). For a constraint set whose emitted triplets lie inside
    the constraint block and a dense matrix [A] already sized
    (c+r) x (c+r), [FillDenseBlock(A)] succeeds, and every emitted triplet
    (row, col, val) whose coordinate (row, col) no other emitted triplet
    shares satisfies A[c+row][col] == val and A[col][c+row] == val. *)
Theorem FillDenseBlock_copies_unique_triplets (c : T) (A : MatrixXd) :
  MatrixXd_wf A ->
  m_rows A = SaddleNumRows c -> m_cols A = SaddleNumRows c ->
  triplets_in_range c ->
  exists A',
    FillDenseBlock c A = Ok A' /\
    forall (k : nat) (t : Triplet),
      emitted c !! k = Some t ->
      (forall k' t', emitted c !! k' = Some t' ->
                     row t' = row t -> col t' = col t -> k' = k) ->
      coeff A' (NumExpectedCols c + row t) (col t) = Ok (value t) /\
      coeff A' (col t) (NumExpectedCols c + row t) = Ok (value t).
Proof.
  intros Hwf Hr Hc Hin.
  destruct (fill_dense_loop_spec (NumExpectedCols c) (emitted c) A Hwf)
    as (A' & Hloop & _ & _ & _ & Hread).
  { apply emitted_positions_in_matrix; assumption. }
  exists A'. split; [exact Hloop|].
  intros k t Hk Huniq. rewrite !Hread.
  rewrite !(last_write_unique c k t) by auto. split; reflexivity.
Qed.

(** C6. For a constraint set whose emitted triplets lie inside the
    constraint block and a dense matrix [A] already sized (c+r) x (c+r),
    [FillDenseBlock(A)] succeeds, leaves the dimensions and the storage size
    of [A] as they were, and leaves every coefficient as it was except at the
    positions (c+row, col) and (col, c+row) of the emitted triplets. *)
Theorem FillDenseBlock_frame (c : T) (A : MatrixXd) :
  MatrixXd_wf A ->
  m_rows A = SaddleNumRows c -> m_cols A = SaddleNumRows c ->
  triplets_in_range c ->
  exists A',
    FillDenseBlock c A = Ok A' /\
    m_rows A' = m_rows A /\ m_cols A' = m_cols A /\
    length (m_data A') = length (m_data A) /\
    forall i j : Z,
      (forall t, t ∈ emitted c ->
                 ~ (i = NumExpectedCols c + row t /\ j = col t) /\
                 ~ (i = col t /\ j = NumExpectedCols c + row t)) ->
      coeff A' i j = coeff A i j.
Proof.
  intros Hwf Hr Hc Hin.
  destruct (fill_dense_loop_spec (NumExpectedCols c) (emitted c) A Hwf)
    as (A' & Hloop & Hwf' & Hr' & Hc' & Hread).
  { apply emitted_positions_in_matrix; assumption. }
  exists A'. split_and!; try assumption.
  - destruct Hwf as (_ & _ & Hlen), Hwf' as (_ & _ & Hlen').
    apply Nat2Z.inj. rewrite Hlen, Hlen', Hr', Hc'. reflexivity.
  - intros i j Hfree. rewrite Hread. unfold last_write.
    rewrite later_write_None; [reflexivity|].
    apply Forall_forall. intros t Ht. destruct (Hfree t Ht) as [Hlow Hup].
    unfold writes_to. apply orb_false_iff.
    rewrite !andb_false_iff, !Z.eqb_neq. split; lia.
Qed.

End DenseBlock.

Lemma FillDenseBlock_copies_unique_triplets_witness :
  MatrixXd_wf (Zero 4 4) /\
  triplets_in_range (mkSumConstraint 1 2 3 10) /\
  exists A',
    FillDenseBlock (mkSumConstraint 1 2 3 10) (Zero 4 4) = Ok A' /\
    forall (k : nat) (t : Triplet),
      emitted (mkSumConstraint 1 2 3 10) !! k = Some t ->
      (forall k' t', emitted (mkSumConstraint 1 2 3 10) !! k' = Some t' ->
                     row t' = row t -> col t' = col t -> k' = k) ->
      coeff A' (3 + row t) (col t) = Ok (value t) /\
      coeff A' (col t) (3 + row t) = Ok (value t).
Proof.
  assert (MatrixXd_wf (Zero 4 4)) as Hwf by (unfold MatrixXd_wf; simpl; lia).
  assert (triplets_in_range (mkSumConstraint 1 2 3 10)) as Hin
    by (repeat constructor; simpl; lia).
  split; [exact Hwf|]. split; [exact Hin|].
  exact (FillDenseBlock_copies_unique_triplets
           (mkSumConstraint 1 2 3 10) (Zero 4 4) Hwf eq_refl eq_refl Hin).
Defined.

Lemma FillDenseBlock_earlier_duplicate_lost :
  emitted (mkSplitConstraint 1 2) !! 0%nat = Some (mkTriplet 0 0 1%float) /\
  (A' ← FillDenseBlock (mkSplitConstraint 1 2) (Zero 2 2);
   coeff A' (NumExpectedCols (mkSplitConstraint 1 2) + 0) 0) = Ok 2%float /\
  (A' ← FillDenseBlock (mkSplitConstraint 1 2) (Zero 2 2);
   coeff A' 0 (NumExpectedCols (mkSplitConstraint 1 2) + 0)) = Ok 2%float /\
  Ok 2%float <> Ok 1%float.
Proof.
  split_and!; try reflexivity.
  intros Heq.
  apply (f_equal (fun r => match r with
                           | Ok x => PrimFloat.eqb x 1%float
                           | Err _ => false
                           end)) in Heq.
  vm_compute in Heq. discriminate.
Qed.

Lemma FillDenseBlock_frame_witness :
  MatrixXd_wf (Zero 4 4) /\
  triplets_in_range (mkSumConstraint 1 2 3 10) /\
  exists A',
    FillDenseBlock (mkSumConstraint 1 2 3 10) (Zero 4 4) = Ok A' /\
    m_rows A' = 4 /\ m_cols A' = 4 /\
    length (m_data A') = 16%nat /\
    forall i j : Z,
      (forall t, t ∈ emitted (mkSumConstraint 1 2 3 10) ->
                 ~ (i = 3 + row t /\ j = col t) /\
                 ~ (i = col t /\ j = 3 + row t)) ->
      coeff A' i j = coeff (Zero 4 4) i j.
Proof.
  assert (MatrixXd_wf (Zero 4 4)) as Hwf by (unfold MatrixXd_wf; simpl; lia).
  assert (triplets_in_range (mkSumConstraint 1 2 3 10)) as Hin
    by (repeat constructor; simpl; lia).
  split; [exact Hwf|]. split; [exact Hin|].
  exact (FillDenseBlock_frame
           (mkSumConstraint 1 2 3 10) (Zero 4 4) Hwf eq_refl eq_refl Hin).
Defined.

(** ** The assembly of [FillConstraintMatrix] *)

Lemma lookup_accumulate (m : gmap (Z * Z) float) (t : Triplet) (i j : Z) :
  accumulate m t !! (i, j) = add_at i j (m !! (i, j)) t.
Proof.
  unfold accumulate, add_at. rewrite lookup_partial_alter.
  destruct (decide ((row t, col t) = (i, j))) as [Heq | Hne].
  - injection Heq as Hrow Hcol. subst i j. rewrite !Z.eqb_refl. reflexivity.
  - destruct ((row t =? i) && (col t =? j)) eqn:Hsame; [|reflexivity].
    apply andb_true_iff in Hsame as [Hrow%Z.eqb_eq Hcol%Z.eqb_eq]. congruence.
Qed.

Lemma lookup_fold_accumulate (ts : list Triplet) (m : gmap (Z * Z) float)
    (i j : Z) :
  fold_left accumulate ts m !! (i, j) = fold_left (add_at i j) ts (m !! (i, j)).
Proof.
  revert m. induction ts as [|t ts IH]; intros m; simpl; [reflexivity|].
  rewrite IH, lookup_accumulate. reflexivity.
Qed.

Lemma add_at_fold_Some (i j : Z) (ts : list Triplet) (s : option float) :
  is_Some (fold_left (add_at i j) ts s) ->
  is_Some s \/ exists t, t ∈ ts /\ row t = i /\ col t = j.
Proof.
  revert s. induction ts as [|t ts IH]; intros s; simpl; [tauto|].
  intros Hfold. apply IH in Hfold as [Hs | (t' & Hin & Hrow & Hcol)].
  - unfold add_at in Hs.
    destruct ((row t =? i) && (col t =? j)) eqn:Hsame; [|tauto].
    apply andb_true_iff in Hsame as [Hrow%Z.eqb_eq Hcol%Z.eqb_eq].
    right. exists t. split; [apply list_elem_of_here | auto].
  - right. exists t'. split; [apply list_elem_of_further, Hin | auto].
Qed.

Lemma forallb_triplet_in (r c : Z) (ts : list Triplet) :
  Forall (fun t => 0 <= row t < r /\ 0 <= col t < c) ts ->
  forallb (triplet_in r c) ts = true.
Proof.
  induction 1 as [|t ts Ht _ IH]; simpl; [reflexivity|].
  rewrite IH, andb_true_r. unfold triplet_in.
  rewrite !andb_true_iff. lia.
Qed.

Section ConstraintMatrix.
Context {T : Type} `{DomainConstraints T}.

(** C3. For a constraint set with r >= 0 rows and c >= 0 columns whose
    emitted triplets lie inside the block, and every sparse matrix [B],
    whatever its size and contents: [FillConstraintMatrix(B)] succeeds and
    leaves a matrix of shape exactly r x c; what it stores at a coordinate
    is the sum of the emitted triplets there, so it stores something only
    where a triplet was emitted; and the result does not depend on [B]. *)
Theorem FillConstraintMatrix_fresh (c : T) (B : SparseMatrix) :
  0 <= NumConstraintRows c -> 0 <= NumExpectedCols c ->
  triplets_in_range c ->
  exists B',
    FillConstraintMatrix c B = Ok B' /\
    sp_rows B' = NumConstraintRows c /\ sp_cols B' = NumExpectedCols c /\
    (forall i j, sp_coeffs B' !! (i, j) = sum_at (emitted c) i j) /\
    (forall i j, is_Some (sp_coeffs B' !! (i, j)) ->
                 exists t, t ∈ emitted c /\ row t = i /\ col t = j) /\
    (forall B0 : SparseMatrix, FillConstraintMatrix c B0 = Ok B').
Proof.
  intros Hr Hc Hin.
  assert (forall B0, FillConstraintMatrix c B0 =
                     Ok {| sp_rows := NumConstraintRows c;
                           sp_cols := NumExpectedCols c;
                           sp_coeffs := fold_left accumulate (emitted c) ∅ |})
    as Hfill.
  { intros B0. unfold FillConstraintMatrix, resize, setFromTriplets, eigen_assert.
    replace ((0 <=? NumConstraintRows c) && (0 <=? NumExpectedCols c))
      with true by (symmetry; apply andb_true_iff; lia).
    simpl. fold (emitted c). rewrite (forallb_triplet_in _ _ _ Hin).
    reflexivity. }
  eexists. split; [apply Hfill|]. simpl. split_and!; try reflexivity.
  - intros i j. rewrite lookup_fold_accumulate, lookup_empty. reflexivity.
  - intros i j. rewrite lookup_fold_accumulate, lookup_empty.
    intros [Hs | Ht]%add_at_fold_Some; [|exact Ht].
    destruct Hs as [? ?]. discriminate.
  - exact Hfill.
Qed.

End ConstraintMatrix.

Lemma FillConstraintMatrix_fresh_witness :
  triplets_in_range (mkSumConstraint 1 2 3 10) /\
  exists B',
    FillConstraintMatrix (mkSumConstraint 1 2 3 10)
      (mkSparseMatrix 7 2 {[ (5, 1) := 9%float ]}) = Ok B' /\
    sp_rows B' = 1 /\ sp_cols B' = 3 /\
    (forall i j,
       sp_coeffs B' !! (i, j) = sum_at (emitted (mkSumConstraint 1 2 3 10)) i j) /\
    (forall i j, is_Some (sp_coeffs B' !! (i, j)) ->
                 exists t, t ∈ emitted (mkSumConstraint 1 2 3 10) /\
                           row t = i /\ col t = j) /\
    (forall B0 : SparseMatrix,
       FillConstraintMatrix (mkSumConstraint 1 2 3 10) B0 = Ok B').
Proof.
  assert (triplets_in_range (mkSumConstraint 1 2 3 10)) as Hin
    by (repeat constructor; simpl; lia).
  split; [exact Hin|].
  refine (FillConstraintMatrix_fresh (mkSumConstraint 1 2 3 10) _ _ _ Hin);
    simpl; lia.
Defined.

(** C4, at the failing input: a constraint set that emits (0, 0, 1.0) and
    then (0, 0, 2.0).  The sparse block of [FillConstraintMatrix] holds their
    sum 3.0 at (0, 0); the dense quadrants of [FillDenseBlock] hold 2.0, the
    value emitted last, at (1, 0) and at (0, 1). *)
Theorem FillDenseBlock_overwrites_duplicates :
  emitted (mkSplitConstraint 1 2)
    = [mkTriplet 0 0 1%float; mkTriplet 0 0 2%float] /\
  (B ← FillConstraintMatrix (mkSplitConstraint 1 2) (mkSparseMatrix 0 0 ∅);
   Ok (sp_coeff B 0 0)) = Ok 3%float /\
  (A ← FillDenseBlock (mkSplitConstraint 1 2) (Zero 2 2); coeff A 1 0)
    = Ok 2%float /\
  (A ← FillDenseBlock (mkSplitConstraint 1 2) (Zero 2 2); coeff A 0 1)
    = Ok 2%float.
Proof. split_and!; reflexivity. Qed.

(** ** Target values *)

Section TargetValues.
Context {T : Type} `{DomainConstraints T}.

Lemma UpdateTargetValues_sized (c : T) (targets : VectorXd) :
  rows targets = NumConstraintRows c ->
  UpdateTargetValues c targets = Ok (SetTargetValues c targets).
Proof.
  intros Hlen. unfold UpdateTargetValues.
  rewrite Hlen, Z.eqb_refl. reflexivity.
Qed.

Lemma UpdateTargetValues_missized (c : T) (targets : VectorXd) :
  0 <= NumConstraintRows c ->
  rows targets <> NumConstraintRows c ->
  UpdateTargetValues c targets =
  Ok (SetTargetValues c (replicate (Z.to_nat (NumConstraintRows c)) 0%float)).
Proof.
  intros Hr Hlen. unfold UpdateTargetValues, setZero, eigen_assert.
  apply Z.eqb_neq in Hlen. rewrite Hlen. simpl.
  apply Z.leb_le in Hr. rewrite Hr. reflexivity.
Qed.

Lemma rows_replicate (n : Z) (x : float) :
  0 <= n -> rows (replicate (Z.to_nat n) x) = n.
Proof. intros Hn. unfold rows. rewrite length_replicate. lia. Qed.

(** C5. On a vector whose length differs from r >= 0, [UpdateTargetValues]
    replaces the vector by r zeros and hands exactly those to the
    implementation's [SetTargetValues], whatever the implementation is; and
    for a constraint set whose [SetTargetValues] sets each of the r entries
    to the current value of its constraint, every call yields r target
    values, and a second call on the vector the first has filled, with the
    same implementation state, yields the same vector. *)
Theorem UpdateTargetValues_resizes_and_repeats (c : T) (targets : VectorXd) :
  (0 <= NumConstraintRows c ->
   rows targets <> NumConstraintRows c ->
   setZero targets (NumConstraintRows c)
     = Ok (replicate (Z.to_nat (NumConstraintRows c)) 0%float) /\
   rows (replicate (Z.to_nat (NumConstraintRows c)) 0%float)
     = NumConstraintRows c /\
   UpdateTargetValues c targets =
   Ok (SetTargetValues c (replicate (Z.to_nat (NumConstraintRows c)) 0%float))) /\
  (SetTargetValues_fills c ->
   exists v : VectorXd,
     UpdateTargetValues c targets = Ok v /\
     rows v = NumConstraintRows c /\
     UpdateTargetValues c v = Ok v).
Proof.
  split.
  - intros Hr Hne. split_and!.
    + unfold setZero, eigen_assert.
      replace (0 <=? NumConstraintRows c) with true by (symmetry; lia).
      reflexivity.
    + apply rows_replicate, Hr.
    + apply UpdateTargetValues_missized; assumption.
  - intros (current & Hlen & Hfill).
    assert (0 <= NumConstraintRows c) as Hr by (unfold rows in Hlen; lia).
    exists current.
    assert (UpdateTargetValues c current = Ok current) as Hagain
      by (rewrite UpdateTargetValues_sized, Hfill by exact Hlen; reflexivity).
    split_and!; [|exact Hlen|exact Hagain].
    destruct (decide (rows targets = NumConstraintRows c)) as [Heq | Hne].
    + rewrite UpdateTargetValues_sized, Hfill by exact Heq. reflexivity.
    + rewrite UpdateTargetValues_missized by assumption.
      rewrite Hfill by (apply rows_replicate, Hr). reflexivity.
Qed.

(** C9. If the vector passed to [UpdateTargetValues] already has exactly r
    entries, the generic layer neither zeroes nor changes it: the call is
    the implementation's [SetTargetValues] on that very vector. *)
Theorem UpdateTargetValues_keeps_sized_vector (c : T) (targets : VectorXd) :
  rows targets = NumConstraintRows c ->
  UpdateTargetValues c targets = Ok (SetTargetValues c targets).
Proof.
  intros Hlen. unfold UpdateTargetValues.
  replace (rows targets =? NumConstraintRows c) with true
    by (symmetry; apply Z.eqb_eq, Hlen).
  reflexivity.
Qed.

End TargetValues.

Lemma SumConstraint_SetTargetValues_fills (c : SumConstraint) :
  SetTargetValues_fills c.
Proof.
  exists [sc_target c]. split; [reflexivity|].
  intros [|x [|y v]]; unfold rows; simpl; intros Hlen;
    [lia | reflexivity | lia].
Defined.

Lemma UpdateTargetValues_resizes_and_repeats_witness :
  SetTargetValues_fills (mkSumConstraint 1 2 3 10) /\
  (setZero [4; 5]%float 1 = Ok [0%float] /\
   rows [0%float] = 1 /\
   UpdateTargetValues (mkSumConstraint 1 2 3 10) [4; 5]%float =
   Ok (SetTargetValues (mkSumConstraint 1 2 3 10) [0%float])) /\
  exists v : VectorXd,
    UpdateTargetValues (mkSumConstraint 1 2 3 10) [4; 5]%float = Ok v /\
    rows v = 1 /\
    UpdateTargetValues (mkSumConstraint 1 2 3 10) v = Ok v.
Proof.
  assert (0 <= NumConstraintRows (mkSumConstraint 1 2 3 10)) as Hr
    by (simpl; lia).
  assert (rows [4; 5]%float <> NumConstraintRows (mkSumConstraint 1 2 3 10))
    as Hne by (unfold rows; simpl; lia).
  split; [apply SumConstraint_SetTargetValues_fills|].
  split.
  - exact (proj1 (UpdateTargetValues_resizes_and_repeats
                    (mkSumConstraint 1 2 3 10) [4; 5]%float) Hr Hne).
  - exact (proj2 (UpdateTargetValues_resizes_and_repeats
                    (mkSumConstraint 1 2 3 10) [4; 5]%float)
             (SumConstraint_SetTargetValues_fills (mkSumConstraint 1 2 3 10))).
Defined.

Lemma UpdateTargetValues_keeps_sized_vector_witness :
  rows [7%float] = NumConstraintRows (mkSumConstraint 1 2 3 10) /\
  UpdateTargetValues (mkSumConstraint 1 2 3 10) [7%float] =
  Ok (SetTargetValues (mkSumConstraint 1 2 3 10) [7%float]).
Proof.
  split; [reflexivity|].
  exact (UpdateTargetValues_keeps_sized_vector
           (mkSumConstraint 1 2 3 10) [7%float] eq_refl).
Defined.

(** ** Constraint values *)

Lemma take_drop_inserts (l k : list float) (i : nat) :
  (i + length k <= length l)%nat ->
  take (length k) (drop i (list_inserts i k l)) = k.
Proof.
  intros Hlen. apply list_eq. intros n.
  destruct (decide (n < length k)%nat) as [Hn | Hn].
  - rewrite lookup_take_lt, lookup_drop by exact Hn.
    rewrite list_lookup_inserts by lia.
    f_equal. lia.
  - rewrite lookup_take_ge by lia.
    symmetry. apply lookup_ge_None. lia.
Qed.

Lemma rows_uninitialized (junk : nat -> float) (n : Z) :
  0 <= n -> rows (map junk (seq 0 (Z.to_nat n))) = n.
Proof. intros Hn. unfold rows. rewrite length_map, length_seq. lia. Qed.

Section ConstraintValues.
Context {T : Type} `{DomainConstraints T}.

(** C2 (as amended). For a constraint set with r >= 0 rows whose
    [NegativeConstraintValues] keeps the size of the vector it fills, and for
    [b] and [offset] with 0 <= offset and offset + r <= length of [b]:
    [FillConstraintValues(b, targets, offset)] succeeds, keeps the length of
    [b], leaves at indices offset .. offset+r-1 the r entries the
    implementation computed, leaves every other entry of [b] as it was, and
    returns the infinity norm of those r entries. *)
Theorem FillConstraintValues_writes_segment (junk : nat -> float) (c : T)
    (b targets : VectorXd) (offset : Z) :
  0 <= NumConstraintRows c ->
  NegativeConstraintValues_fills c ->
  0 <= offset -> offset + NumConstraintRows c <= rows b ->
  exists (b' targets' : VectorXd) (norm : float),
    FillConstraintValues junk c b targets offset = Ok (b', targets', norm) /\
    length b' = length b /\
    take (Z.to_nat (NumConstraintRows c)) (drop (Z.to_nat offset) b') =
      (NegativeConstraintValues c
         (map junk (seq 0 (Z.to_nat (NumConstraintRows c)))) targets).1 /\
    (forall i : nat,
       (i < Z.to_nat offset \/
        Z.to_nat offset + Z.to_nat (NumConstraintRows c) <= i)%nat ->
       b' !! i = b !! i) /\
    norm = lpNorm_Infinity
             (take (Z.to_nat (NumConstraintRows c)) (drop (Z.to_nat offset) b')).
Proof.
  intros Hr Hfills Hoff Hfit.
  pose proof (Hfills (map junk (seq 0 (Z.to_nat (NumConstraintRows c)))) targets
                (rows_uninitialized junk _ Hr)) as Hsize.
  unfold FillConstraintValues, uninitialized, assign_block, eigen_assert.
  replace (0 <=? NumConstraintRows c) with true by (symmetry; lia).
  simpl.
  destruct (NegativeConstraintValues c
              (map junk (seq 0 (Z.to_nat (NumConstraintRows c)))) targets)
    as [b_constrs targets'] eqn:Hneg.
  simpl in Hsize.
  replace (0 <=? offset) with true by (symmetry; lia).
  replace (offset <=? rows b - NumConstraintRows c) with true
    by (symmetry; lia).
  rewrite Hsize, Z.eqb_refl. simpl.
  assert (Z.to_nat (NumConstraintRows c) = length b_constrs) as Hlen
    by (unfold rows in Hsize; lia).
  assert (Z.to_nat offset + length b_constrs <= length b)%nat as Hfit'
    by (unfold rows in Hfit, Hsize; lia).
  eexists _, _, _. split; [reflexivity|].
  rewrite Hlen, take_drop_inserts by exact Hfit'.
  split_and!; try reflexivity.
  - apply length_inserts.
  - intros i [Hi | Hi].
    + apply list_lookup_inserts_lt, Hi.
    + apply list_lookup_inserts_ge, Hi.
Qed.

(** C10. [FillConstraintValues(b, targets, offset)] never resizes [b]; under
    the precondition offset >= 0 and length of [b] at least
    offset + NumConstraintRows(), the write never fails the range check, and
    every index from offset up to offset + NumConstraintRows() - 1 is an
    index of [b]. *)
Theorem FillConstraintValues_in_bounds (junk : nat -> float) (c : T)
    (b targets : VectorXd) (offset : Z) :
  0 <= offset -> offset + NumConstraintRows c <= rows b ->
  FillConstraintValues junk c b targets offset <> Err IndexOutOfRange /\
  (forall (b' targets' : VectorXd) (norm : float),
     FillConstraintValues junk c b targets offset = Ok (b', targets', norm) ->
     length b' = length b) /\
  (forall i : Z,
     offset <= i < offset + NumConstraintRows c ->
     is_Some (b !! Z.to_nat i)).
Proof.
  intros Hoff Hfit.
  assert (forall r : result (VectorXd * VectorXd * float),
            FillConstraintValues junk c b targets offset = r ->
            r <> Err IndexOutOfRange /\
            forall b' targets' norm,
              r = Ok (b', targets', norm) -> length b' = length b) as Hcases.
  { intros r <-.
    unfold FillConstraintValues, uninitialized, assign_block, eigen_assert.
    destruct (0 <=? NumConstraintRows c) eqn:Hr; simpl;
      [|split; [discriminate | intros ? ? ? [=]]].
    destruct (NegativeConstraintValues c _ targets) as [b_constrs targets0].
    replace ((0 <=? offset) && true && (offset <=? rows b - NumConstraintRows c))
      with true by (symmetry; rewrite !andb_true_iff; lia).
    simpl.
    destruct (rows b_constrs =? NumConstraintRows c); simpl;
      [|split; [discriminate | intros ? ? ? [=]]].
    split; [discriminate|].
    intros b' targets' norm [= <- _ _]. apply length_inserts. }
  destruct (Hcases _ eq_refl) as [Hrange Hsame].
  split_and!; [exact Hrange | exact Hsame |].
  intros i Hi. apply lookup_lt_is_Some. unfold rows in Hfit. lia.
Qed.

End ConstraintValues.

Lemma SumConstraint_NegativeConstraintValues_fills (c : SumConstraint) :
  NegativeConstraintValues_fills c.
Proof.
  intros [|x b] targets; unfold rows; simpl; intros Hlen; lia.
Defined.

Lemma FillConstraintValues_writes_segment_witness :
  NegativeConstraintValues_fills (mkSumConstraint 1 2 3 10) /\
  exists (b' targets' : VectorXd) (norm : float),
    FillConstraintValues no_junk (mkSumConstraint 1 2 3 10)
      [5; 6; 7; 8]%float [10%float] 3 = Ok (b', targets', norm) /\
    length b' = 4%nat /\
    take 1 (drop 3 b') =
      (NegativeConstraintValues (mkSumConstraint 1 2 3 10)
         (map no_junk (seq 0 1)) [10%float]).1 /\
    (forall i : nat,
       (i < 3 \/ 3 + 1 <= i)%nat -> b' !! i = [5; 6; 7; 8]%float !! i) /\
    norm = lpNorm_Infinity (take 1 (drop 3 b')).
Proof.
  split; [apply SumConstraint_NegativeConstraintValues_fills|].
  refine (FillConstraintValues_writes_segment no_junk
            (mkSumConstraint 1 2 3 10) [5; 6; 7; 8]%float [10%float] 3
            _ (SumConstraint_NegativeConstraintValues_fills _) _ _);
    unfold rows; simpl; lia.
Defined.

Lemma FillConstraintValues_short_vector_fails :
  NumConstraintRows (mkSumConstraint 1 2 3 10) = 1 /\
  FillConstraintValues no_junk (mkSumConstraint 1 2 3 10) [] [10%float] 0
  = Err IndexOutOfRange.
Proof. split; reflexivity. Qed.

Lemma FillConstraintValues_in_bounds_witness :
  0 <= 3 /\
  3 + NumConstraintRows (mkSumConstraint 1 2 3 10) <= rows [5; 6; 7; 8]%float /\
  FillConstraintValues no_junk (mkSumConstraint 1 2 3 10)
    [5; 6; 7; 8]%float [10%float] 3 <> Err IndexOutOfRange /\
  (forall (b' targets' : VectorXd) (norm : float),
     FillConstraintValues no_junk (mkSumConstraint 1 2 3 10)
       [5; 6; 7; 8]%float [10%float] 3 = Ok (b', targets', norm) ->
     length b' = 4%nat) /\
  (forall i : Z, 3 <= i < 3 + 1 -> is_Some ([5; 6; 7; 8]%float !! Z.to_nat i)).
Proof.
  assert (0 <= 3) as Hoff by lia.
  assert (3 + NumConstraintRows (mkSumConstraint 1 2 3 10)
          <= rows [5; 6; 7; 8]%float) as Hfit by (unfold rows; simpl; lia).
  split; [exact Hoff|]. split; [exact Hfit|].
  exact (FillConstraintValues_in_bounds no_junk (mkSumConstraint 1 2 3 10)
           [5; 6; 7; 8]%float [10%float] 3 Hoff Hfit).
Defined.

(** ** The sum constraint, end to end *)

(** Three unknowns 1, 2, 3 whose sum is to equal 10: the block is [1 1 1];
    on the 4 x 4 zero matrix it fills row 3 and column 3; the target vector
    is [10]; the residual 10 - (1 + 2 + 3) = 4 is written at [b[3]] and is
    the norm returned. *)
Example SumConstraint_scenario :
  (B ← FillConstraintMatrix (mkSumConstraint 1 2 3 10) (mkSparseMatrix 0 0 ∅);
   Ok (sp_rows B, sp_cols B, [sp_coeff B 0 0; sp_coeff B 0 1; sp_coeff B 0 2]))
    = Ok (1, 3, [1; 1; 1]%float) /\
  FillDenseBlock (mkSumConstraint 1 2 3 10) (Zero 4 4)
    = Ok (mkMatrixXd 4 4 [0; 0; 0; 1;  0; 0; 0; 1;  0; 0; 0; 1;  1; 1; 1; 0]%float) /\
  UpdateTargetValues (mkSumConstraint 1 2 3 10) [] = Ok [10%float] /\
  FillConstraintValues no_junk (mkSumConstraint 1 2 3 10)
    [0; 0; 0; 0]%float [10%float] 3
    = Ok ([0; 0; 0; 4]%float, [10%float], 4%float).
Proof. split_and!; reflexivity. Qed.

(** ** More on [FillDenseBlock] *)

Lemma writes_to_swap (offset : Z) (t : Triplet) (i j : Z) :
  writes_to offset t i j = writes_to offset t j i.
Proof.
  unfold writes_to.
  destruct (i =? offset + row t), (j =? col t), (i =? col t),
    (j =? offset + row t); reflexivity.
Qed.

Lemma last_write_swap (offset : Z) (ts : list Triplet) (i j : Z) :
  last_write offset ts i j = last_write offset ts j i.
Proof.
  unfold last_write. generalize (@None float).
  induction ts as [|t ts IH]; intros w; simpl; [reflexivity|].
  unfold later_write at 2 4. rewrite (writes_to_swap offset t i j). apply IH.
Qed.

Lemma later_write_skip (offset i j : Z) (ts : list Triplet) (w : option float) :
  Forall (fun t => writes_to offset t i j = false) ts ->
  fold_left (later_write offset i j) ts w = w.
Proof.
  induction 1 as [|t ts Ht _ IH]; simpl; [reflexivity|].
  unfold later_write at 2. rewrite Ht. exact IH.
Qed.

Lemma overwritten_twice (w : option float) (old : result float) :
  overwritten w (overwritten w old) = overwritten w old.
Proof. destruct w; reflexivity. Qed.

Lemma fill_dense_step_Ok (offset : Z) (A A' : MatrixXd) (t : Triplet) :
  fill_dense_step offset A t = Ok A' ->
  positions_in_matrix offset A t /\
  m_rows A' = m_rows A /\ m_cols A' = m_cols A.
Proof.
  unfold fill_dense_step, positions_in_matrix, set_coeff, eigen_assert.
  destruct (in_matrix A (offset + row t) (col t)) eqn:Hlow; simpl;
    [|discriminate].
  unfold in_matrix at 1. simpl. fold (in_matrix A (col t) (offset + row t)).
  destruct (in_matrix A (col t) (offset + row t)) eqn:Hup; simpl;
    [|discriminate].
  intros [= <-]. simpl. auto.
Qed.

Lemma fill_dense_loop_Ok (offset : Z) (ts : list Triplet) (A A' : MatrixXd) :
  fill_dense_loop offset A ts = Ok A' ->
  Forall (positions_in_matrix offset A) ts.
Proof.
  revert A. induction ts as [|t ts IH]; intros A; simpl; [constructor|].
  destruct (fill_dense_step offset A t) as [A1|e] eqn:Hstep; simpl;
    [|discriminate].
  intros Hloop. apply fill_dense_step_Ok in Hstep as (Hpos & Hr & Hc).
  constructor; [exact Hpos|].
  eapply Forall_impl; [apply (IH A1 Hloop)|].
  unfold positions_in_matrix, in_matrix. intros t'. rewrite Hr, Hc. auto.
Qed.

Section DenseBlockMore.
Context {T : Type} `{DomainConstraints T}.

(** X1. For in-range triplets and [A] sized (c+r) x (c+r), [FillDenseBlock]
    changes neither the top-left c x c block (the kernel) nor the
    bottom-right block. *)
Theorem FillDenseBlock_keeps_diagonal_blocks (c : T) (A : MatrixXd) :
  MatrixXd_wf A ->
  m_rows A = SaddleNumRows c -> m_cols A = SaddleNumRows c ->
  triplets_in_range c ->
  exists A',
    FillDenseBlock c A = Ok A' /\
    forall i j : Z,
      (i < NumExpectedCols c /\ j < NumExpectedCols c) \/
      (NumExpectedCols c <= i /\ NumExpectedCols c <= j) ->
      coeff A' i j = coeff A i j.
Proof.
  intros Hwf Hr Hc Hin.
  destruct (fill_dense_loop_spec (NumExpectedCols c) (emitted c) A Hwf)
    as (A' & Hloop & _ & _ & _ & Hread).
  { apply emitted_positions_in_matrix; assumption. }
  exists A'. split; [exact Hloop|].
  intros i j Hij. rewrite Hread. unfold last_write.
  rewrite later_write_None; [reflexivity|].
  eapply Forall_impl; [exact Hin|]. intros t [Hrow Hcol].
  unfold writes_to. apply orb_false_iff.
  rewrite !andb_false_iff, !Z.eqb_neq. lia.
Qed.

(** X2. [FillDenseBlock] keeps the matrix symmetric wherever it was: if
    A[i][j] == A[j][i] before the call, then so after it. *)
Theorem FillDenseBlock_preserves_symmetry (c : T) (A : MatrixXd) :
  MatrixXd_wf A ->
  m_rows A = SaddleNumRows c -> m_cols A = SaddleNumRows c ->
  triplets_in_range c ->
  exists A',
    FillDenseBlock c A = Ok A' /\
    forall i j : Z, coeff A i j = coeff A j i -> coeff A' i j = coeff A' j i.
Proof.
  intros Hwf Hr Hc Hin.
  destruct (fill_dense_loop_spec (NumExpectedCols c) (emitted c) A Hwf)
    as (A' & Hloop & _ & _ & _ & Hread).
  { apply emitted_positions_in_matrix; assumption. }
  exists A'. split; [exact Hloop|].
  intros i j Hsym. rewrite !Hread, Hsym, (last_write_swap _ _ i j). reflexivity.
Qed.

Lemma last_write_last (c : T) (k : nat) (t : Triplet) (i j : Z) :
  triplets_in_range c ->
  emitted c !! k = Some t ->
  (forall k' t', (k < k')%nat -> emitted c !! k' = Some t' ->
                 coordinate t' <> coordinate t) ->
  (i = NumExpectedCols c + row t /\ j = col t) \/
  (i = col t /\ j = NumExpectedCols c + row t) ->
  last_write (NumExpectedCols c) (emitted c) i j = Some (value t).
Proof.
  intros Hin Hk Hlast Hij.
  assert (writes_to (NumExpectedCols c) t i j = true) as Hw.
  { unfold writes_to. rewrite orb_true_iff, !andb_true_iff, !Z.eqb_eq. lia. }
  unfold triplets_in_range in Hin. rewrite Forall_lookup in Hin.
  pose proof (Hin k t Hk) as [Hrow Hcol].
  unfold last_write.
  rewrite <- (take_drop_middle (emitted c) k t Hk) at 1.
  rewrite fold_left_app. simpl. unfold later_write at 2. rewrite Hw.
  apply later_write_skip. apply Forall_lookup. intros n t' Hn.
  rewrite lookup_drop in Hn.
  pose proof (Hin _ t' Hn) as [Hrow' Hcol'].
  destruct (writes_to (NumExpectedCols c) t' i j) eqn:Hw'; [|reflexivity].
  exfalso. apply (Hlast (S k + n)%nat t'); [lia | exact Hn |].
  assert (row t' = row t /\ col t' = col t) as [Hr Hc].
  { apply (writes_to_same_coordinate c); try lia.
    destruct Hij as [[-> ->] | [-> ->]]; auto. }
  unfold coordinate. congruence.
Qed.

(** X3. For in-range triplets and [A] sized (c+r) x (c+r): of the triplets
    emitted at one coordinate (row, col), the one emitted last is the one
    read back at A[c+row][col] and A[col][c+row]. *)
Theorem FillDenseBlock_last_emitted_wins (c : T) (A : MatrixXd) :
  MatrixXd_wf A ->
  m_rows A = SaddleNumRows c -> m_cols A = SaddleNumRows c ->
  triplets_in_range c ->
  exists A',
    FillDenseBlock c A = Ok A' /\
    forall (k : nat) (t : Triplet),
      emitted c !! k = Some t ->
      (forall k' t', (k < k')%nat -> emitted c !! k' = Some t' ->
                     coordinate t' <> coordinate t) ->
      coeff A' (NumExpectedCols c + row t) (col t) = Ok (value t) /\
      coeff A' (col t) (NumExpectedCols c + row t) = Ok (value t).
Proof.
  intros Hwf Hr Hc Hin.
  destruct (fill_dense_loop_spec (NumExpectedCols c) (emitted c) A Hwf)
    as (A' & Hloop & _ & _ & _ & Hread).
  { apply emitted_positions_in_matrix; assumption. }
  exists A'. split; [exact Hloop|].
  intros k t Hk Hlast. rewrite !Hread.
  rewrite !(last_write_last c k t) by auto. split; reflexivity.
Qed.

(** X4. Filling twice is filling once: after [FillDenseBlock(A)], a second
    [FillDenseBlock(A)] succeeds and leaves every coefficient as the first
    call left it. *)
Theorem FillDenseBlock_idempotent (c : T) (A : MatrixXd) :
  MatrixXd_wf A ->
  m_rows A = SaddleNumRows c -> m_cols A = SaddleNumRows c ->
  triplets_in_range c ->
  exists A' A'',
    FillDenseBlock c A = Ok A' /\ FillDenseBlock c A' = Ok A'' /\
    forall i j : Z, coeff A'' i j = coeff A' i j.
Proof.
  intros Hwf Hr Hc Hin.
  destruct (fill_dense_loop_spec (NumExpectedCols c) (emitted c) A Hwf)
    as (A' & Hloop & Hwf' & Hr' & Hc' & Hread).
  { apply emitted_positions_in_matrix; assumption. }
  destruct (fill_dense_loop_spec (NumExpectedCols c) (emitted c) A' Hwf')
    as (A'' & Hloop' & _ & _ & _ & Hread').
  { apply emitted_positions_in_matrix; congruence. }
  exists A', A''. split_and!; [exact Hloop | exact Hloop' |].
  intros i j. rewrite Hread', Hread. apply overwritten_twice.
Qed.

(** X5. [FillDenseBlock(A)] succeeds exactly when, for every emitted
    triplet, both positions (c+row, col) and (col, c+row) lie inside [A]:
    the triplets are checked against the size of [A], not against the
    r x c block. *)
Theorem FillDenseBlock_succeeds_iff (c : T) (A : MatrixXd) :
  MatrixXd_wf A ->
  (exists A', FillDenseBlock c A = Ok A') <->
  Forall (positions_in_matrix (NumExpectedCols c) A) (emitted c).
Proof.
  intros Hwf. split.
  - intros [A' Hfill]. apply (fill_dense_loop_Ok _ _ _ _ Hfill).
  - intros Hpos.
    destruct (fill_dense_loop_spec (NumExpectedCols c) (emitted c) A Hwf Hpos)
      as (A' & Hloop & _).
    exists A'. exact Hloop.
Qed.

End DenseBlockMore.

Lemma FillDenseBlock_keeps_diagonal_blocks_witness :
  MatrixXd_wf (Zero 4 4) /\
  triplets_in_range (mkSumConstraint 1 2 3 10) /\
  exists A',
    FillDenseBlock (mkSumConstraint 1 2 3 10) (Zero 4 4) = Ok A' /\
    forall i j : Z,
      (i < 3 /\ j < 3) \/ (3 <= i /\ 3 <= j) ->
      coeff A' i j = coeff (Zero 4 4) i j.
Proof.
  assert (MatrixXd_wf (Zero 4 4)) as Hwf by (unfold MatrixXd_wf; simpl; lia).
  assert (triplets_in_range (mkSumConstraint 1 2 3 10)) as Hin
    by (repeat constructor; simpl; lia).
  split; [exact Hwf|]. split; [exact Hin|].
  exact (FillDenseBlock_keeps_diagonal_blocks
           (mkSumConstraint 1 2 3 10) (Zero 4 4) Hwf eq_refl eq_refl Hin).
Defined.

Lemma FillDenseBlock_preserves_symmetry_witness :
  MatrixXd_wf (Zero 4 4) /\
  triplets_in_range (mkSumConstraint 1 2 3 10) /\
  exists A',
    FillDenseBlock (mkSumConstraint 1 2 3 10) (Zero 4 4) = Ok A' /\
    forall i j : Z,
      coeff (Zero 4 4) i j = coeff (Zero 4 4) j i ->
      coeff A' i j = coeff A' j i.
Proof.
  assert (MatrixXd_wf (Zero 4 4)) as Hwf by (unfold MatrixXd_wf; simpl; lia).
  assert (triplets_in_range (mkSumConstraint 1 2 3 10)) as Hin
    by (repeat constructor; simpl; lia).
  split; [exact Hwf|]. split; [exact Hin|].
  exact (FillDenseBlock_preserves_symmetry
           (mkSumConstraint 1 2 3 10) (Zero 4 4) Hwf eq_refl eq_refl Hin).
Defined.

Lemma FillDenseBlock_last_emitted_wins_witness :
  MatrixXd_wf (Zero 2 2) /\
  triplets_in_range (mkSplitConstraint 1 2) /\
  exists A',
    FillDenseBlock (mkSplitConstraint 1 2) (Zero 2 2) = Ok A' /\
    forall (k : nat) (t : Triplet),
      emitted (mkSplitConstraint 1 2) !! k = Some t ->
      (forall k' t', (k < k')%nat ->
                     emitted (mkSplitConstraint 1 2) !! k' = Some t' ->
                     coordinate t' <> coordinate t) ->
      coeff A' (1 + row t) (col t) = Ok (value t) /\
      coeff A' (col t) (1 + row t) = Ok (value t).
Proof.
  assert (MatrixXd_wf (Zero 2 2)) as Hwf by (unfold MatrixXd_wf; simpl; lia).
  assert (triplets_in_range (mkSplitConstraint 1 2)) as Hin
    by (repeat constructor; simpl; lia).
  split; [exact Hwf|]. split; [exact Hin|].
  exact (FillDenseBlock_last_emitted_wins
           (mkSplitConstraint 1 2) (Zero 2 2) Hwf eq_refl eq_refl Hin).
Defined.

Lemma FillDenseBlock_idempotent_witness :
  MatrixXd_wf (Zero 2 2) /\
  triplets_in_range (mkSplitConstraint 1 2) /\
  exists A' A'',
    FillDenseBlock (mkSplitConstraint 1 2) (Zero 2 2) = Ok A' /\
    FillDenseBlock (mkSplitConstraint 1 2) A' = Ok A'' /\
    forall i j : Z, coeff A'' i j = coeff A' i j.
Proof.
  assert (MatrixXd_wf (Zero 2 2)) as Hwf by (unfold MatrixXd_wf; simpl; lia).
  assert (triplets_in_range (mkSplitConstraint 1 2)) as Hin
    by (repeat constructor; simpl; lia).
  split; [exact Hwf|]. split; [exact Hin|].
  exact (FillDenseBlock_idempotent
           (mkSplitConstraint 1 2) (Zero 2 2) Hwf eq_refl eq_refl Hin).
Defined.

Lemma FillDenseBlock_succeeds_iff_witness :
  MatrixXd_wf (Zero 3 3) /\
  ((exists A', FillDenseBlock (mkSumConstraint 1 2 3 10) (Zero 3 3) = Ok A') <->
   Forall (positions_in_matrix 3 (Zero 3 3))
          (emitted (mkSumConstraint 1 2 3 10))).
Proof.
  assert (MatrixXd_wf (Zero 3 3)) as Hwf by (unfold MatrixXd_wf; simpl; lia).
  split; [exact Hwf|].
  exact (FillDenseBlock_succeeds_iff (mkSumConstraint 1 2 3 10) (Zero 3 3) Hwf).
Defined.

(** ** [FillConstraintMatrix] next to [FillDenseBlock] *)

Lemma add_at_skip (i j : Z) (ts : list Triplet) (s : option float) :
  Forall (fun t => coordinate t <> (i, j)) ts ->
  fold_left (add_at i j) ts s = s.
Proof.
  induction 1 as [|t ts Ht _ IH]; simpl; [reflexivity|].
  unfold add_at at 2.
  destruct ((row t =? i) && (col t =? j)) eqn:Hsame; [|exact IH].
  apply andb_true_iff in Hsame as [Hrow%Z.eqb_eq Hcol%Z.eqb_eq].
  exfalso. apply Ht. unfold coordinate. congruence.
Qed.

Lemma writes_to_lower_left (offset : Z) (t : Triplet) (i j : Z) :
  0 <= row t -> 0 <= col t < offset -> 0 <= i -> 0 <= j < offset ->
  writes_to offset t (offset + i) j = (row t =? i) && (col t =? j).
Proof.
  intros Hrow Hcol Hi Hj. unfold writes_to.
  replace ((offset + i =? col t) && (j =? offset + row t)) with false
    by (symmetry; apply andb_false_iff; rewrite !Z.eqb_neq; lia).
  rewrite orb_false_r.
  destruct (Z.eqb_spec (row t) i) as [-> | Hne].
  - rewrite Z.eqb_refl. simpl. apply Z.eqb_sym.
  - replace (offset + i =? offset + row t) with false
      by (symmetry; apply Z.eqb_neq; lia).
    reflexivity.
Qed.

(** With distinct coordinates the sum at a coordinate and the value copied
    last to it are one and the same. *)
Lemma sum_at_last_write (offset : Z) (ts : list Triplet) (i j : Z) :
  Forall (fun t => 0 <= row t /\ 0 <= col t < offset) ts ->
  NoDup (map coordinate ts) ->
  0 <= i -> 0 <= j < offset ->
  sum_at ts i j = last_write offset ts (offset + i) j.
Proof.
  intros Hin Hnd Hi Hj. unfold sum_at, last_write.
  induction Hin as [|t ts [Hrow Hcol] Hin IH]; simpl; [reflexivity|].
  apply NoDup_cons in Hnd as [Hfresh Hnd].
  unfold add_at at 2, later_write at 2.
  rewrite (writes_to_lower_left offset t i j) by assumption.
  destruct ((row t =? i) && (col t =? j)) eqn:Hsame; [|apply IH, Hnd].
  apply andb_true_iff in Hsame as [Hr%Z.eqb_eq Hc%Z.eqb_eq].
  assert (Forall (fun t' => coordinate t' <> (i, j)) ts) as Hnone.
  { apply Forall_forall. intros t' Ht' Heq. apply Hfresh.
    replace (coordinate t) with (i, j) by (unfold coordinate; congruence).
    rewrite <- Heq. apply list_elem_of_fmap_2, Ht'. }
  rewrite add_at_skip by exact Hnone.
  rewrite later_write_skip; [reflexivity|].
  apply Forall_forall. intros t' Ht'.
  rewrite Forall_forall in Hnone, Hin.
  destruct (Hin t' Ht') as [Hrow' Hcol'].
  rewrite writes_to_lower_left by assumption.
  apply andb_false_iff.
  destruct (Z.eqb_spec (row t') i) as [Hr'|]; [|auto].
  destruct (Z.eqb_spec (col t') j) as [Hc'|]; [|auto].
  exfalso. apply (Hnone t' Ht'). unfold coordinate. congruence.
Qed.

Lemma forallb_triplet_in_Forall (r c : Z) (ts : list Triplet) :
  forallb (triplet_in r c) ts = true ->
  Forall (fun t => 0 <= row t < r /\ 0 <= col t < c) ts.
Proof.
  induction ts as [|t ts IH]; simpl; [constructor|].
  intros [Ht Hts]%andb_true_iff. constructor; [|apply IH, Hts].
  unfold triplet_in in Ht. rewrite !andb_true_iff in Ht. lia.
Qed.

Section BlockAgreement.
Context {T : Type} `{DomainConstraints T}.

Lemma FillConstraintMatrix_assembles (c : T) (B : SparseMatrix) :
  0 <= NumConstraintRows c -> 0 <= NumExpectedCols c ->
  triplets_in_range c ->
  FillConstraintMatrix c B =
  Ok {| sp_rows := NumConstraintRows c;
        sp_cols := NumExpectedCols c;
        sp_coeffs := fold_left accumulate (emitted c) ∅ |}.
Proof.
  intros Hr Hc Hin.
  unfold FillConstraintMatrix, resize, setFromTriplets, eigen_assert.
  replace ((0 <=? NumConstraintRows c) && (0 <=? NumExpectedCols c))
    with true by (symmetry; apply andb_true_iff; lia).
  simpl. fold (emitted c). rewrite (forallb_triplet_in _ _ _ Hin).
  reflexivity.
Qed.

(** X6. For a constraint set with r, c >= 0 whose emitted triplets lie in
    the block at pairwise distinct coordinates, and [A] sized
    (c+r) x (c+r) whose two off-diagonal blocks are zero: after
    [FillDenseBlock(A)] and [FillConstraintMatrix(B)], the lower-left block
    of [A] is [B] and the upper-right block is its transpose, coefficient by
    coefficient. *)
Theorem FillDenseBlock_agrees_with_FillConstraintMatrix
    (c : T) (A : MatrixXd) (B : SparseMatrix) :
  MatrixXd_wf A ->
  m_rows A = SaddleNumRows c -> m_cols A = SaddleNumRows c ->
  0 <= NumConstraintRows c -> 0 <= NumExpectedCols c ->
  triplets_in_range c -> coordinates_distinct c ->
  (forall i j, 0 <= i < NumConstraintRows c -> 0 <= j < NumExpectedCols c ->
               coeff A (NumExpectedCols c + i) j = Ok 0%float /\
               coeff A j (NumExpectedCols c + i) = Ok 0%float) ->
  exists A' B',
    FillDenseBlock c A = Ok A' /\ FillConstraintMatrix c B = Ok B' /\
    forall i j, 0 <= i < NumConstraintRows c -> 0 <= j < NumExpectedCols c ->
                coeff A' (NumExpectedCols c + i) j = Ok (sp_coeff B' i j) /\
                coeff A' j (NumExpectedCols c + i) = Ok (sp_coeff B' i j).
Proof.
  intros Hwf Hrows Hcols Hr Hc Hin Hnd Hzero.
  destruct (fill_dense_loop_spec (NumExpectedCols c) (emitted c) A Hwf)
    as (A' & Hloop & _ & _ & _ & Hread).
  { apply emitted_positions_in_matrix; assumption. }
  eexists A', _.
  split_and!; [exact Hloop | apply FillConstraintMatrix_assembles; assumption |].
  intros i j Hi Hj. destruct (Hzero i j Hi Hj) as [Hlow Hup].
  rewrite !Hread, Hlow, Hup. unfold sp_coeff. simpl.
  rewrite lookup_fold_accumulate, lookup_empty. fold (sum_at (emitted c) i j).
  rewrite (last_write_swap _ _ j).
  rewrite (sum_at_last_write (NumExpectedCols c)); try lia.
  - destruct (last_write _ _ _ _); split; reflexivity.
  - eapply Forall_impl; [exact Hin|]. simpl. intros t ?. lia.
  - exact Hnd.
Qed.

(** X7. For a constraint set with r, c >= 0, [FillConstraintMatrix]
    succeeds exactly when every emitted triplet lies inside the r x c
    block; a single triplet outside makes the whole call fail. *)
Theorem FillConstraintMatrix_succeeds_iff (c : T) (B : SparseMatrix) :
  0 <= NumConstraintRows c -> 0 <= NumExpectedCols c ->
  (exists B', FillConstraintMatrix c B = Ok B') <-> triplets_in_range c.
Proof.
  intros Hr Hc. split.
  - intros [B' Hfill]. revert Hfill.
    unfold FillConstraintMatrix, resize, setFromTriplets, eigen_assert.
    replace ((0 <=? NumConstraintRows c) && (0 <=? NumExpectedCols c))
      with true by (symmetry; apply andb_true_iff; lia).
    simpl. fold (emitted c).
    destruct (forallb _ (emitted c)) eqn:Hall; [|discriminate].
    intros _. apply forallb_triplet_in_Forall, Hall.
  - intros Hin. eexists. apply FillConstraintMatrix_assembles; assumption.
Qed.

End BlockAgreement.

Lemma coeff_Zero (n m i j : Z) :
  0 <= i < n -> 0 <= j < m -> coeff (Zero n m) i j = Ok 0%float.
Proof.
  intros Hi Hj. unfold coeff, eigen_assert.
  replace (in_matrix (Zero n m) i j) with true
    by (symmetry; apply in_matrix_spec; simpl; lia).
  simpl. unfold linear_index. simpl.
  rewrite lookup_replicate_2 by nia. reflexivity.
Qed.

Lemma SumConstraint_coordinates_distinct (c : SumConstraint) :
  coordinates_distinct c.
Proof.
  unfold coordinates_distinct. apply NoDup_ListNoDup. simpl.
  repeat constructor; simpl; intuition discriminate.
Defined.

Lemma FillDenseBlock_agrees_with_FillConstraintMatrix_witness :
  triplets_in_range (mkSumConstraint 1 2 3 10) /\
  coordinates_distinct (mkSumConstraint 1 2 3 10) /\
  exists A' B',
    FillDenseBlock (mkSumConstraint 1 2 3 10) (Zero 4 4) = Ok A' /\
    FillConstraintMatrix (mkSumConstraint 1 2 3 10) (mkSparseMatrix 0 0 ∅)
      = Ok B' /\
    forall i j, 0 <= i < 1 -> 0 <= j < 3 ->
                coeff A' (3 + i) j = Ok (sp_coeff B' i j) /\
                coeff A' j (3 + i) = Ok (sp_coeff B' i j).
Proof.
  assert (MatrixXd_wf (Zero 4 4)) as Hwf by (unfold MatrixXd_wf; simpl; lia).
  assert (triplets_in_range (mkSumConstraint 1 2 3 10)) as Hin
    by (repeat constructor; simpl; lia).
  split; [exact Hin|].
  split; [apply SumConstraint_coordinates_distinct|].
  refine (FillDenseBlock_agrees_with_FillConstraintMatrix
            (mkSumConstraint 1 2 3 10) (Zero 4 4) (mkSparseMatrix 0 0 ∅)
            Hwf eq_refl eq_refl _ _ Hin
            (SumConstraint_coordinates_distinct _) _);
    simpl; try lia.
  intros i j Hi Hj. split; apply coeff_Zero; lia.
Defined.

Lemma FillConstraintMatrix_succeeds_iff_witness :
  (exists B', FillConstraintMatrix (mkSumConstraint 1 2 3 10)
                (mkSparseMatrix 0 0 ∅) = Ok B') <->
  triplets_in_range (mkSumConstraint 1 2 3 10).
Proof.
  refine (FillConstraintMatrix_succeeds_iff
            (mkSumConstraint 1 2 3 10) (mkSparseMatrix 0 0 ∅) _ _);
    simpl; lia.
Defined.

(** ** More on the target and constraint values *)

Lemma max_visit_cases (res x : float) :
  max_visit res x = res \/ max_visit res x = PrimFloat.abs x.
Proof. unfold max_visit. destruct (PrimFloat.ltb _ _); auto. Qed.

Lemma fold_max_visit_elem (xs : list float) (res : float) :
  fold_left max_visit xs res = res \/
  exists k x, xs !! k = Some x /\ fold_left max_visit xs res = PrimFloat.abs x.
Proof.
  revert res. induction xs as [|y xs IH]; intros res; simpl; [auto|].
  destruct (IH (max_visit res y)) as [Hkeep | (k & x & Hk & Hx)].
  - rewrite Hkeep. destruct (max_visit_cases res y) as [-> | ->]; [auto|].
    right. exists 0%nat, y. auto.
  - right. exists (S k), x. auto.
Qed.

Lemma lpNorm_Infinity_elem (v : VectorXd) :
  v <> [] ->
  exists k x, v !! k = Some x /\ lpNorm_Infinity v = PrimFloat.abs x.
Proof.
  destruct v as [|y xs]; [congruence|]. intros _. simpl.
  destruct (fold_max_visit_elem xs (PrimFloat.abs y))
    as [-> | (k & x & Hk & ->)].
  - exists 0%nat, y. auto.
  - exists (S k), x. auto.
Qed.

Section ValuesMore.
Context {T : Type} `{DomainConstraints T}.

(** X8. [UpdateTargetValues] succeeds exactly when NumConstraintRows() is
    not negative; with a negative row count every call fails in
    [setZero], whatever vector it is given. *)
Theorem UpdateTargetValues_succeeds_iff (c : T) (targets : VectorXd) :
  ((exists v, UpdateTargetValues c targets = Ok v) <-> 0 <= NumConstraintRows c) /\
  (NumConstraintRows c < 0 ->
   UpdateTargetValues c targets = Err NegativeSize).
Proof.
  unfold UpdateTargetValues, setZero, eigen_assert.
  destruct (Z.eqb_spec (rows targets) (NumConstraintRows c)) as [Heq | Hne];
    simpl.
  - unfold rows in Heq. split; [|lia]. split; [lia | eauto].
  - destruct (Z.leb_spec 0 (NumConstraintRows c)) as [Hr | Hr]; simpl.
    + split; [|lia]. split; [lia | eauto].
    + split; [|reflexivity]. split; [|lia]. intros [v Hv]. discriminate.
Qed.

(** X9. What a vector of the wrong length held never reaches the
    implementation: two vectors whose lengths both differ from r give the
    same result. *)
Theorem UpdateTargetValues_discards_missized (c : T) (t1 t2 : VectorXd) :
  rows t1 <> NumConstraintRows c -> rows t2 <> NumConstraintRows c ->
  UpdateTargetValues c t1 = UpdateTargetValues c t2.
Proof.
  intros H1%Z.eqb_neq H2%Z.eqb_neq. unfold UpdateTargetValues.
  rewrite H1, H2. reflexivity.
Qed.

(** X10. [FillConstraintValues] succeeds exactly when r >= 0, the block
    [offset, offset + r) lies inside [b], and the implementation left its
    vector with r rows; it fails the range check exactly when r >= 0 and
    the block does not lie inside [b], whatever the implementation does. *)
Theorem FillConstraintValues_outcome (junk : nat -> float) (c : T)
    (b targets : VectorXd) (offset : Z) :
  ((exists out, FillConstraintValues junk c b targets offset = Ok out) <->
   0 <= NumConstraintRows c /\
   0 <= offset /\ offset + NumConstraintRows c <= rows b /\
   rows (NegativeConstraintValues c
           (map junk (seq 0 (Z.to_nat (NumConstraintRows c)))) targets).1
     = NumConstraintRows c) /\
  (FillConstraintValues junk c b targets offset = Err IndexOutOfRange <->
   0 <= NumConstraintRows c /\
   (offset < 0 \/ rows b < offset + NumConstraintRows c)).
Proof.
  unfold FillConstraintValues, uninitialized, assign_block, eigen_assert.
  destruct (Z.leb_spec 0 (NumConstraintRows c)) as [Hr | Hr]; simpl.
  - destruct (NegativeConstraintValues c _ targets) as [b_constrs targets'].
    simpl.
    destruct (Z.leb_spec 0 offset) as [Hoff | Hoff];
      destruct (Z.leb_spec offset (rows b - NumConstraintRows c)) as [Hfit | Hfit];
      destruct (Z.eqb_spec (rows b_constrs) (NumConstraintRows c)) as [Hsz | Hsz];
      simpl;
      (split; split; [intros [out Hout] | intros Hcond | intros Herr | intros Hcond]);
      try discriminate; try lia; eauto.
  - split; split; [intros [out Hout] | intros Hcond | intros Herr | intros Hcond];
      try discriminate; lia.
Qed.

(** X11. With no constraint rows (r = 0) and an implementation that keeps
    the size of its vector, [FillConstraintValues] leaves [b] as it was and
    returns 0, for every offset from 0 to the length of [b]. *)
Theorem FillConstraintValues_no_rows (junk : nat -> float) (c : T)
    (b targets : VectorXd) (offset : Z) :
  NumConstraintRows c = 0 ->
  NegativeConstraintValues_fills c ->
  0 <= offset <= rows b ->
  exists targets' : VectorXd,
    FillConstraintValues junk c b targets offset = Ok (b, targets', 0%float).
Proof.
  intros Hr Hfills Hoff.
  pose proof (Hfills [] targets) as Hsize. rewrite Hr in Hsize.
  specialize (Hsize eq_refl).
  unfold FillConstraintValues, uninitialized, assign_block, eigen_assert.
  rewrite Hr. simpl.
  destruct (NegativeConstraintValues c [] targets) as [b_constrs targets'].
  simpl in Hsize.
  assert (b_constrs = []) as ->
    by (destruct b_constrs; [reflexivity | unfold rows in Hsize; simpl in Hsize; lia]).
  replace (0 <=? offset) with true by (symmetry; lia).
  replace (offset <=? rows b - 0) with true by (symmetry; lia).
  exists targets'. reflexivity.
Qed.

(** X12. With r > 0, an implementation that keeps the size of its vector,
    and the block inside [b]: the norm [FillConstraintValues] returns is the
    absolute value of one of the r entries it has written. *)
Theorem FillConstraintValues_norm_is_written_entry (junk : nat -> float)
    (c : T) (b targets : VectorXd) (offset : Z) :
  0 < NumConstraintRows c ->
  NegativeConstraintValues_fills c ->
  0 <= offset -> offset + NumConstraintRows c <= rows b ->
  exists (b' targets' : VectorXd) (norm : float) (i : nat) (x : float),
    FillConstraintValues junk c b targets offset = Ok (b', targets', norm) /\
    offset <= Z.of_nat i < offset + NumConstraintRows c /\
    b' !! i = Some x /\
    norm = PrimFloat.abs x.
Proof.
  intros Hr Hfills Hoff Hfit.
  assert (0 <= NumConstraintRows c) as Hr0 by lia.
  pose proof (Hfills (map junk (seq 0 (Z.to_nat (NumConstraintRows c)))) targets
                (rows_uninitialized junk _ Hr0)) as Hsize.
  unfold FillConstraintValues, uninitialized, assign_block, eigen_assert.
  replace (0 <=? NumConstraintRows c) with true by (symmetry; lia).
  simpl.
  destruct (NegativeConstraintValues c
              (map junk (seq 0 (Z.to_nat (NumConstraintRows c)))) targets)
    as [b_constrs targets'].
  simpl in Hsize.
  replace (0 <=? offset) with true by (symmetry; lia).
  replace (offset <=? rows b - NumConstraintRows c) with true
    by (symmetry; lia).
  rewrite Hsize, Z.eqb_refl. simpl.
  unfold rows in Hsize, Hfit.
  destruct (lpNorm_Infinity_elem b_constrs) as (k & x & Hk & Hnorm).
  { intros ->. simpl in Hsize. lia. }
  pose proof (lookup_lt_Some _ _ _ Hk) as Hklt.
  exists (list_inserts (Z.to_nat offset) b_constrs b), targets',
    (lpNorm_Infinity b_constrs), (Z.to_nat offset + k)%nat, x.
  split_and!; [reflexivity | lia | lia | | exact Hnorm].
  etrans; [apply list_lookup_inserts; lia|].
  rewrite <- Hk. f_equal. lia.
Qed.

End ValuesMore.

Lemma UpdateTargetValues_discards_missized_witness :
  rows [] <> NumConstraintRows (mkSumConstraint 1 2 3 10) /\
  rows [4; 5]%float <> NumConstraintRows (mkSumConstraint 1 2 3 10) /\
  UpdateTargetValues (mkSumConstraint 1 2 3 10) [] =
  UpdateTargetValues (mkSumConstraint 1 2 3 10) [4; 5]%float.
Proof.
  assert (rows [] <> NumConstraintRows (mkSumConstraint 1 2 3 10)) as H1
    by (unfold rows; simpl; lia).
  assert (rows [4; 5]%float <> NumConstraintRows (mkSumConstraint 1 2 3 10))
    as H2 by (unfold rows; simpl; lia).
  split; [exact H1|]. split; [exact H2|].
  exact (UpdateTargetValues_discards_missized
           (mkSumConstraint 1 2 3 10) [] [4; 5]%float H1 H2).
Defined.

Lemma FreeConstraint_NegativeConstraintValues_fills (c : FreeConstraint) :
  NegativeConstraintValues_fills c.
Proof. intros b targets Hlen. exact Hlen. Defined.

Lemma FillConstraintValues_no_rows_witness :
  NegativeConstraintValues_fills (mkFreeConstraint 2) /\
  exists targets' : VectorXd,
    FillConstraintValues no_junk (mkFreeConstraint 2) [5; 6]%float [] 2
    = Ok ([5; 6]%float, targets', 0%float).
Proof.
  split; [apply FreeConstraint_NegativeConstraintValues_fills|].
  refine (FillConstraintValues_no_rows no_junk (mkFreeConstraint 2)
            [5; 6]%float [] 2 eq_refl
            (FreeConstraint_NegativeConstraintValues_fills _) _).
  unfold rows; simpl; lia.
Defined.

Lemma FillConstraintValues_norm_is_written_entry_witness :
  NegativeConstraintValues_fills (mkSumConstraint 1 2 3 10) /\
  exists (b' targets' : VectorXd) (norm : float) (i : nat) (x : float),
    FillConstraintValues no_junk (mkSumConstraint 1 2 3 10)
      [5; 6; 7; 8]%float [10%float] 3 = Ok (b', targets', norm) /\
    3 <= Z.of_nat i < 3 + 1 /\
    b' !! i = Some x /\
    norm = PrimFloat.abs x.
Proof.
  split; [apply SumConstraint_NegativeConstraintValues_fills|].
  refine (FillConstraintValues_norm_is_written_entry no_junk
            (mkSumConstraint 1 2 3 10) [5; 6; 7; 8]%float [10%float] 3
            _ (SumConstraint_NegativeConstraintValues_fills _) _ _);
    unfold rows; simpl; lia.
Defined.
